(** * regexpstruct: capture groups stored into struct fields

    A shallow embedding of [re.go] (package [regexpstruct]) and the
    properties of its field resolution ([extractFields], [wrapFields]),
    of the capture binding loop of [Compile], of [deserialize] and of the
    two matching methods [FindStringStruct] and [FindAllStringStruct].

    Conventions of the embedding.
    - [reflect.Type] is the inductive [gotype]; a struct type carries what
      the code reads from it: its name, whether it is assignable to the
      setter and to the text-unmarshaler interface, and its fields.
    - A getter closure [func(reflect.Value) reflect.Value] is stored in
      defunctionalised form, as the list of the steps it performs from
      the outside in ([getter]).  The source builds getters from two
      primitive closures, [v.Field(index)] and the allocate-if-nil
      dereference, composed by [inner(w(v))] and [getter(v.Field(index))].
    - A Go map is a [gomap]: [None] is the nil map, [Some m] an allocated
      one; a Go slice result is an [option (list _)] in the same way.
    - The target of a deserialization is passed and returned as a [value];
      a pointer field holds its pointee, so two pointers never share one.
      Recursive struct types, which Go allows through pointers, are not
      [gotype]s (on one that embeds a pointer to itself [extractFields]
      does not return).
    - A panic is an explicit outcome ([Panic]).
    - The regular expression engine (package [regexp]) is external; a
      compiled expression is a record of the three methods the code calls. *)

From stdpp Require Import gmap strings list fin_maps.
From Stdlib Require Import ZArith Sorted.

Local Open Scope string_scope.
Local Open Scope list_scope.
Local Open Scope nat_scope.

(** ** Types, as [reflect] shows them *)

Inductive Kind := KBool | KInt | KString | KPtr | KStruct.

Global Instance Kind_eq_dec : EqDecision Kind.
Proof. solve_decision. Defined.

(** The types that are neither pointers nor structs; three of them stand
    for all: the code only tells [String] from the rest, and then only
    when [SetString] checks the kind of its receiver. *)
Inductive scalar := SBool | SInt | SString.

Global Instance scalar_eq_dec : EqDecision scalar.
Proof. solve_decision. Defined.

(** [StructTag] in parsed form: the key/value pairs of the conventional
    tag syntax, in the order they are written. *)
Definition StructTag := list (string * string).

(** [tag.Lookup(key)]: the value of the first pair with that key. *)
Fixpoint Lookup (tag : StructTag) (key : string) : option string :=
  match tag with
  | [] => None
  | (k, v) :: rest => if decide (k = key) then Some v else Lookup rest key
  end.

(** [reflect.StructField], over the type of field types. *)
Record StructField (T : Type) := mkField {
  Name : string;
  Tag : StructTag;
  Anonymous : bool;
  IsExported : bool;
  Type_ : T
}.
Arguments mkField {T} _ _ _ _ _.
Arguments Name {T} _.
Arguments Tag {T} _.
Arguments Anonymous {T} _.
Arguments IsExported {T} _.
Arguments Type_ {T} _.

#[warnings="-register-all"]
Inductive gotype :=
| TScalar (k : scalar)
| TPtr (elem : gotype)
| TStruct (name : string) (isSetter isUnmarshaler : bool)
          (fields : list (StructField gotype)).

Definition kind (t : gotype) : Kind :=
  match t with
  | TScalar SBool => KBool
  | TScalar SInt => KInt
  | TScalar SString => KString
  | TPtr _ => KPtr
  | TStruct _ _ _ _ => KStruct
  end.

(** ** Getters *)

(** [SField i] is [v.Field(i)]; [SDeref] is the closure of the [Ptr] case:
    set a nil pointer to a fresh value, then [v.Elem()]. *)
Inductive step := SField (index : nat) | SDeref.

Global Instance step_eq_dec : EqDecision step.
Proof. solve_decision. Defined.

Abbreviation getter := (list step) (only parsing).

(** A Go map from capture names to getters. *)
Definition gomap := option (gmap string getter).

Definition entries (fields : gomap) : gmap string getter :=
  default ∅ fields.

(** [len(fields)] *)
Definition len (fields : gomap) : nat := size (entries fields).

(** [fields[name]]: the zero value (a nil getter) is [None]. *)
Definition index_map (fields : gomap) (name : string) : option getter :=
  entries fields !! name.

(** [wrapFields]: every stored getter [inner] becomes [inner(w(v))]. *)
Definition wrapFields (fields : gomap) (w : step) : gomap :=
  (fun m : gmap string getter => (fun inner => w :: inner) <$> m) <$> fields.

(** The loop [for name, g := range fields2] of the tagged struct case:
    [fields[tag+"__"+name] = getter(v.Field(index))]. *)
Definition addPrefixed (tag : string) (index : nat)
    (fields2 : gmap string getter) (fields : gmap string getter) : gmap string getter :=
  map_fold (fun name g acc => <[(tag ++ "__" ++ name)%string := SField index :: g]> acc)
           fields fields2.

(** The loop [for name, getter := range fields2] of the embedded case. *)
Definition addAll (fields2 : gmap string getter) (fields : gmap string getter)
    : gmap string getter :=
  map_fold (fun name g acc => <[name := g]> acc) fields fields2.

(** [t.Name()], [t.AssignableTo(typeSetter)] and
    [t.AssignableTo(typeTextUnmarshaler)].  The code asks them of struct
    types only ([&&] stops at a kind that is not [Struct]); the other
    types answer with the unnamed type without methods. *)
Definition typeName (t : gotype) : string :=
  match t with
  | TStruct name _ _ _ => name
  | _ => ""
  end.

Definition assignableToSetter (t : gotype) : bool :=
  match t with
  | TStruct _ isSetter _ _ => isSetter
  | _ => false
  end.

Definition assignableToTextUnmarshaler (t : gotype) : bool :=
  match t with
  | TStruct _ _ isUnmarshaler _ => isUnmarshaler
  | _ => false
  end.

(** [isStruct] of the tagged case. *)
Definition isStruct (t : gotype) : bool :=
  bool_decide (kind t = KStruct)
  && (bool_decide (typeName t = "")
      || (negb (assignableToSetter t) && negb (assignableToTextUnmarshaler t))).

(** The condition [tag, ok := f.Tag.Lookup(tagName); ok && tag != ""],
    with the tag it binds. *)
Definition taggedWith (tagName : string) (f : StructField gotype) : option string :=
  match Lookup (Tag f) tagName with
  | Some tag => if bool_decide (tag = "") then None else Some tag
  | None => None
  end.

(** One iteration of the loop over the fields of a struct type; [sub] is
    the result of the recursive call [extractFields(f.Type, tagName)],
    which the two recursing branches make on the same arguments. *)
Definition fieldStep (tagName : string) (index : nat) (f : StructField gotype)
    (sub : gomap) (fields : gomap) : gomap :=
  match taggedWith tagName f with
  | Some tag =>
      let fields := default ∅ fields in
      if isStruct (Type_ f) then
        Some (addPrefixed tag index (entries sub) fields)
      else
        Some (<[tag := [SField index]]> fields)
  | None =>
      if Anonymous f then
        let fields2 := wrapFields sub (SField index) in
        match fields with
        | None => fields2
        | Some m => Some (addAll (entries fields2) m)
        end
      else fields
  end.

(** The loop [for i := 0; i < t.NumField(); i++], from index [i] on, over
    the fields not yet visited; [rec] is the recursive call. *)
Fixpoint fieldsLoop (rec : gotype -> gomap) (tagName : string)
    (fs : list (StructField gotype)) (i : nat) (fields : gomap) : gomap :=
  match fs with
  | [] => fields
  | f :: rest =>
      fieldsLoop rec tagName rest (S i) (fieldStep tagName i f (rec (Type_ f)) fields)
  end.

Fixpoint extractFields (t : gotype) (tagName : string) : gomap :=
  match t with
  | TPtr elem => wrapFields (extractFields elem tagName) SDeref
  | TStruct _ _ _ fs =>
      fieldsLoop (fun t' => extractFields t' tagName) tagName fs 0 None
  | TScalar _ => None
  end.

(** ** Values *)

(** The contents of a variable of a [gotype].  A pointer holds its
    pointee: the code reaches a pointee only through the embedded pointer
    field that holds it, and allocates it itself when the pointer is nil. *)
#[warnings="-register-all"]
Inductive value :=
| VBool (b : bool)
| VInt (n : Z)
| VString (s : string)
| VPtr (pointee : option value)
| VStruct (fs : list value).

(** The zero value of a type ([var zeroT T], [reflect.New], [make([]T, n)]). *)
Fixpoint zero (t : gotype) : value :=
  match t with
  | TScalar SBool => VBool false
  | TScalar SInt => VInt 0%Z
  | TScalar SString => VString ""
  | TPtr _ => VPtr None
  | TStruct _ _ _ fs => VStruct (map (fun f => zero (Type_ f)) fs)
  end.

(** ** Panics *)

Inductive panic :=
| PanicInvalidTagName          (* panic("invalid tag name") *)
| PanicNotStruct               (* panic("T must be a struct type") *)
| PanicNoFields                (* type %T has no fields with stuct tag %q *)
| PanicReflect                 (* a panic raised by package reflect *)
| PanicIndexOutOfRange         (* matches[m.index] out of range *)
| PanicError (err : string).   (* panic(err) of MustCompile *)

Inductive outcome (A : Type) :=
| Return (a : A)
| Panic (p : panic).
Arguments Return {A} _.
Arguments Panic {A} _.

Global Instance outcome_bind : MBind outcome := fun A B k o =>
  match o with
  | Return a => k a
  | Panic p => Panic p
  end.

(** ** Settability, as [reflect] tracks it *)

(** The two read-only bits of a [reflect.Value]'s flag. *)
Record flagRO := mkRO { stickyRO : bool; embedRO : bool }.

Definition rw : flagRO := mkRO false false.

Definition isRO (fl : flagRO) : bool := stickyRO fl || embedRO fl.

(** The flag of [v.Field(i)]: [flagStickyRO] is inherited, [flagEmbedRO]
    is not; an unexported field sets one of them. *)
Definition fieldFlag (fl : flagRO) (f : StructField gotype) : flagRO :=
  if IsExported f then mkRO (stickyRO fl) false
  else if Anonymous f then mkRO (stickyRO fl) true
  else mkRO true false.

(** ** Deserialization *)

(** [m.get(target).SetString(matches[m.index])] for one capture, on the
    variable [v] of type [t] reached with flag [fl].  The getter runs
    first, step by step; then the argument [matches[m.index]] is
    evaluated ([x], [None] when the index is out of range); then
    [SetString] checks that its receiver is assignable and a string.
    The result is the new contents of the variable. *)
Fixpoint setString (get : getter) (t : gotype) (fl : flagRO) (v : value)
    (x : option string) : outcome value :=
  match get with
  | [] =>
      match x with
      | None => Panic PanicIndexOutOfRange
      | Some s =>
          if isRO fl then Panic PanicReflect
          else match t, v with
               | TScalar SString, VString _ => Return (VString s)
               | _, _ => Panic PanicReflect
               end
      end
  | SField i :: rest =>
      match t, v with
      | TStruct _ _ _ fs, VStruct vs =>
          match fs !! i, vs !! i with
          | Some f, Some fv =>
              fv' ← setString rest (Type_ f) (fieldFlag fl f) fv x;
              Return (VStruct (<[i := fv']> vs))
          | _, _ => Panic PanicReflect
          end
      | _, _ => Panic PanicReflect
      end
  | SDeref :: rest =>
      match t, v with
      | TPtr elem, VPtr None =>
          (* v.IsNil(): v.Set(reflect.New(v.Type().Elem())) *)
          if isRO fl then Panic PanicReflect
          else
            e' ← setString rest elem fl (zero elem) x;
            Return (VPtr (Some e'))
      | TPtr elem, VPtr (Some e) =>
          e' ← setString rest elem fl e x;
          Return (VPtr (Some e'))
      | _, _ => Panic PanicReflect
      end
  end.

Record capture := mkCapture {
  index : nat;
  get : getter
}.

(** [deserialize(matches, captures, target)], with [target] a settable
    variable of type [T] ([reflect.ValueOf(target).Elem()], [v.Index(i)]). *)
Fixpoint deserialize (T : gotype) (matches : list string)
    (captures : list capture) (target : value) : outcome value :=
  match captures with
  | [] => Return target
  | m :: rest =>
      target' ← setString (get m) T rw target (matches !! index m);
      deserialize T matches rest target'
  end.

(** ** The regular expression engine *)

(** What the code uses of a [*regexp.Regexp].  A [nil] result is [None]. *)
Record regexp_Regexp := mkRegexp {
  SubexpNames : list string;
  FindStringSubmatch : string -> option (list string);
  FindAllStringSubmatch : string -> Z -> option (list (list string))
}.

Definition error := string.

(** [Regexp[T]]: the embedded [re] and the captures. *)
Record Regexp := mkRegexpStruct {
  re : regexp_Regexp;
  captures : list capture
}.

(** The loop over [matchesNames] of [Compile], from index [i] on. *)
Fixpoint bindLoop (fields : gomap) (names : list string) (i : nat)
    (captures : list capture) : list capture :=
  match names with
  | [] => captures
  | name :: rest =>
      bindLoop fields rest (S i)
        (if bool_decide (name = "") then captures
         else match index_map fields name with
              | Some get => captures ++ [mkCapture i get]
              | None => captures
              end)
  end.

(** [captures := make(...); for i := 1; i < len(matchesNames); i++ {...}] *)
Definition bindCaptures (fields : gomap) (matchesNames : list string) : list capture :=
  bindLoop fields (drop 1 matchesNames) 1 [].

Section WithEngine.

(** [regexp.Compile] *)
Variable regexp_Compile : string -> regexp_Regexp + error.

(** [Compile[T](expr, structTag)]: a panic, or the pair it returns
    ([inl]: the matcher and a nil error; [inr]: nil and the error). *)
Definition Compile (T : gotype) (expr structTag : string) : outcome (Regexp + error) :=
  if bool_decide (structTag = "") then Panic PanicInvalidTagName
  else if negb (bool_decide (kind T = KStruct)) then Panic PanicNotStruct
  else match regexp_Compile expr with
       | inr err => Return (inr err)
       | inl re =>
           let matchesNames := SubexpNames re in
           let fields := extractFields T structTag in
           if bool_decide (len fields = 0) then Panic PanicNoFields
           else Return (inl (mkRegexpStruct re (bindCaptures fields matchesNames)))
       end.

(** [MustCompile[T](expr, structTag)] *)
Definition MustCompile (T : gotype) (expr structTag : string) : outcome Regexp :=
  r ← Compile T expr structTag;
  match r with
  | inl re => Return re
  | inr err => Panic (PanicError err)
  end.

End WithEngine.

(** [re.FindStringStruct(s, target)]: the result and the new contents of
    [*target]. *)
Definition FindStringStruct (T : gotype) (r : Regexp) (s : string) (target : value)
    : outcome (bool * value) :=
  match FindStringSubmatch (re r) s with
  | None => Return (false, target)
  | Some matches =>
      target' ← deserialize T matches (captures r) target;
      Return (true, target')
  end.

(** The loop [for i := 0; i < nbMatches; i++] of [FindAllStringStruct]:
    element [i] of [r] is deserialized from [matches[i]]. *)
Fixpoint deserializeAll (T : gotype) (captures : list capture)
    (matches : list (list string)) (r : list value) : outcome (list value) :=
  match matches, r with
  | m :: matches', x :: r' =>
      x' ← deserialize T m captures x;
      r'' ← deserializeAll T captures matches' r';
      Return (x' :: r'')
  | _, _ => Return r
  end.

(** [re.FindAllStringStruct(s, n)]; a nil slice is [None]. *)
Definition FindAllStringStruct (T : gotype) (r : Regexp) (s : string) (n : Z)
    : outcome (option (list value)) :=
  match FindAllStringSubmatch (re r) s n with
  | None => Return None
  | Some matches =>
      let nbMatches := length matches in
      r' ← deserializeAll T (captures r) matches (replicate nbMatches (zero T));
      Return (Some r')
  end.

(** * Vocabulary of the properties *)

(** ** Names and what a field yields *)

Definition prefixed (tag name : string) : string := (tag ++ "__" ++ name)%string.

(** What the field [f] at position [i] yields on its own: the iteration
    of the loop for [f], started on the nil map. *)
Definition contribution (tagName : string) (i : nat) (f : StructField gotype) : gomap :=
  fieldStep tagName i f (extractFields (Type_ f) tagName) None.

(** The getter for [name] among the fields [fs], declared from position
    [i] on: that of the last field that yields the name. *)
Fixpoint lastContribution (tagName : string) (fs : list (StructField gotype))
    (i : nat) (name : string) : option getter :=
  match fs with
  | [] => None
  | f :: rest =>
      match lastContribution tagName rest (S i) name with
      | Some g => Some g
      | None => index_map (contribution tagName i f) name
      end
  end.


(** ** Induction over types *)

(** The fields of a struct type nest [gotype] in a list: the induction
    hypothesis for a struct holds of the type of each of its fields. *)
Definition gotype_nested_ind (P : gotype → Prop)
    (Hscalar : ∀ k, P (TScalar k))
    (Hptr : ∀ elem, P elem → P (TPtr elem))
    (Hstruct : ∀ nm s u fs, Forall (fun f => P (Type_ f)) fs → P (TStruct nm s u fs))
    : ∀ t, P t :=
  fix F (t : gotype) : P t :=
    match t with
    | TScalar k => Hscalar k
    | TPtr elem => Hptr elem (F elem)
    | TStruct nm s u fs =>
        Hstruct nm s u fs
          ((fix G (l : list (StructField gotype)) : Forall (fun f => P (Type_ f)) l :=
              match l with
              | [] => List.Forall_nil _
              | f :: rest => List.Forall_cons _ f rest (F (Type_ f)) (G rest)
              end) fs)
    end.

(** ** Reading a target, typed values, settable getters *)

(** The variable a path reaches in a value, without allocating: a nil
    pointer on the way reaches nothing. *)
Fixpoint readPath (q : getter) (v : value) : option value :=
  match q with
  | [] => Some v
  | SField i :: q' =>
      match v with
      | VStruct vs => vs !! i ≫= readPath q'
      | _ => None
      end
  | SDeref :: q' =>
      match v with
      | VPtr (Some e) => readPath q' e
      | _ => None
      end
  end.

(** Two paths part at some struct: they select different fields of it. *)
Fixpoint apart (q p : getter) : bool :=
  match q, p with
  | SField i :: q', SField j :: p' => negb (bool_decide (i = j)) || apart q' p'
  | SDeref :: q', SDeref :: p' => apart q' p'
  | _, _ => false
  end.

Fixpoint forall2b {A B} (p : A → B → bool) (l : list A) (k : list B) : bool :=
  match l, k with
  | [], [] => true
  | a :: l', b :: k' => p a b && forall2b p l' k'
  | _, _ => false
  end.

(** [v] is the contents of a variable of type [t]. *)
Fixpoint hasType (t : gotype) (v : value) : bool :=
  match t, v with
  | TScalar SBool, VBool _ => true
  | TScalar SInt, VInt _ => true
  | TScalar SString, VString _ => true
  | TPtr _, VPtr None => true
  | TPtr elem, VPtr (Some e) => hasType elem e
  | TStruct _ _ _ fs, VStruct vs => forall2b (fun f x => hasType (Type_ f) x) fs vs
  | _, _ => false
  end.

(** The getter [g] runs on every variable of type [t] reached with flag
    [fl], and [SetString] accepts what it returns: the path stays inside
    the struct types, allocates only through settable pointers, and ends
    on a settable string. *)
Fixpoint settable (g : getter) (t : gotype) (fl : flagRO) : bool :=
  match g with
  | [] =>
      negb (isRO fl) && match t with TScalar SString => true | _ => false end
  | SField i :: rest =>
      match t with
      | TStruct _ _ _ fs =>
          match fs !! i with
          | Some f => settable rest (Type_ f) (fieldFlag fl f)
          | None => false
          end
      | _ => false
      end
  | SDeref :: rest =>
      match t with
      | TPtr elem => negb (isRO fl) && settable rest elem fl
      | _ => false
      end
  end.

(** Every getter that [extractFields] resolves in [T] is settable from a
    variable of type [T]: the fields that take part are exported strings,
    reached through exported or embedded fields. *)
Definition allSettable (T : gotype) (tagName : string) : bool :=
  forallb (fun e : string * list step => settable (snd e) T rw)
          (map_to_list (entries (extractFields T tagName))).

(** [len(r)] of a slice result. *)
Definition sliceLen {A} (r : option (list A)) : nat :=
  match r with
  | None => 0
  | Some l => length l
  end.

(** ** Getters against the type they were resolved in *)

(** The type of the variable a getter reaches from a variable of type
    [t], when each step finds what it selects: a field of a struct type,
    the pointee of a pointer type. *)
Fixpoint typeAt (g : list step) (t : gotype) : option gotype :=
  match g with
  | [] => Some t
  | SField i :: rest =>
      match t with
      | TStruct _ _ _ fs => fs !! i ≫= fun f => typeAt rest (Type_ f)
      | _ => None
      end
  | SDeref :: rest =>
      match t with
      | TPtr elem => typeAt rest elem
      | _ => None
      end
  end.

(** The flag of the [reflect.Value] a getter returns, started with flag
    [fl]: [Field] computes [fieldFlag], [Elem] keeps the flag. *)
Fixpoint flagAt (g : list step) (t : gotype) (fl : flagRO) : option flagRO :=
  match g with
  | [] => Some fl
  | SField i :: rest =>
      match t with
      | TStruct _ _ _ fs => fs !! i ≫= fun f => flagAt rest (Type_ f) (fieldFlag fl f)
      | _ => None
      end
  | SDeref :: rest =>
      match t with
      | TPtr elem => flagAt rest elem fl
      | _ => None
      end
  end.

(** The capture name under which [extractFields] registers the field a
    getter reaches, read back from the tags on the way: the tag values of
    the tagged fields joined by [__], embedded fields adding nothing. *)
Fixpoint nameOf (tagName : string) (g : list step) (t : gotype) : option string :=
  match g with
  | [] => None
  | SDeref :: rest =>
      match t with
      | TPtr elem => nameOf tagName rest elem
      | _ => None
      end
  | SField i :: rest =>
      match t with
      | TStruct _ _ _ fs =>
          match fs !! i with
          | Some f =>
              match taggedWith tagName f with
              | Some tag =>
                  if isStruct (Type_ f)
                  then prefixed tag <$> nameOf tagName rest (Type_ f)
                  else match rest with
                       | [] => Some tag
                       | _ => None
                       end
              | None =>
                  if Anonymous f then nameOf tagName rest (Type_ f) else None
              end
          | None => None
          end
      | _ => None
      end
  end.


(** * The types of the tests and scripted engines *)

Definition tString : gotype := TScalar SString.

(** [type pair struct { K string `rx:"k"`; V string `rx:"v"` }] *)
Definition pair : gotype :=
  TStruct "pair" false false
    [mkField "K" [("rx", "k")] false true tString;
     mkField "V" [("rx", "v")] false true tString].

(** [struct { City string `rx:"city"`; Country string `rx:"country"` }],
    the unnamed type of the field [Address] of [TestDeep]. *)
Definition cityCountry : gotype :=
  TStruct "" false false
    [mkField "City" [("rx", "city")] false true tString;
     mkField "Country" [("rx", "country")] false true tString].

(** [person] of [TestDeep]. *)
Definition personDeep : gotype :=
  TStruct "person" false false
    [mkField "Name" [("rx", "name")] false true tString;
     mkField "Address" [("rx", "address")] false true cityCountry].

(** [address] and [person] of [TestEmbedded]. *)
Definition address : gotype :=
  TStruct "address" false false
    [mkField "City" [("rx", "city")] false true tString;
     mkField "Country" [("rx", "country")] false true tString].

Definition personEmbedded : gotype :=
  TStruct "person" false false
    [mkField "Name" [("rx", "name")] false true tString;
     mkField "address" [] true false address].




(** [struct { Name string `rx:"name"`; N int `rx:"n"` }]: a tag value
    on a field that is not a string. *)
Definition counted : gotype :=
  TStruct "counted" false false
    [mkField "Name" [("rx", "name")] false true tString;
     mkField "N" [("rx", "n")] false true (TScalar SInt)].

(** The pattern of the first scenario: two named groups, [k] and [v],
    around an equals sign. *)
Definition patternKV : string := "^(?P<k>.*)=(?P<v>.*)$".

(** A scripted engine: a compiled expression that reports the given group
    names and, for the inputs of a table, the given submatches of a single
    match. *)
Definition scripted (names : list string) (table : list (string * list string))
    : regexp_Regexp :=
  let find := fun s => snd <$> list_find (fun e => bool_decide (fst e = s)) table in
  mkRegexp names
    (fun s => snd <$> find s)
    (fun s n => if bool_decide (n = 0%Z) then None
                else (fun e => [snd e]) <$> find s).

(** A matcher for [pair] whose expression has the single group [k] and
    matches the one input [a]. *)
Definition onlyK : regexp_Regexp := scripted [""; "k"] [("a", ["a"; "a"])].

Definition onlyKMatcher : Regexp := mkRegexpStruct onlyK [mkCapture 1 [SField 0]].


(** The input of [TestDeep] and [TestEmbedded], and its submatches. *)
Definition leonardo : string := "Leonardo da Vinci / Florence / Italia".

Definition leonardoFound : list string :=
  [leonardo; "Leonardo da Vinci"; "Florence"; "Italia"].

(** * Properties *)

(** ** The loops over maps *)

(** The loops of [extractFields] range over a Go map, in an order the
    language leaves open.  Each of them is an update of the target map by
    a map with distinct keys, so the order does not show in the result:
    the lemmas below give the result as a right-biased union. *)

Global Instance prefixed_inj tag : Inj (=) (=) (prefixed tag).
Proof.
  intros n1 n2 H. unfold prefixed in H.
  apply (inj (String.app tag)) in H. by apply (inj (String.app "__")) in H.
Qed.

Lemma addAll_union (fields2 fields : gmap string getter) :
  addAll fields2 fields = fields2 ∪ fields.
Proof.
  unfold addAll.
  apply (map_fold_weak_ind (fun acc m2 => acc = m2 ∪ fields)).
  - by rewrite (left_id_L ∅ (∪)).
  - intros name g m2 acc _ ->. by rewrite insert_union_l.
Qed.

Lemma addPrefixed_union tag i (fields2 fields : gmap string getter) :
  addPrefixed tag i fields2 fields
  = kmap (prefixed tag) ((fun g => SField i :: g) <$> fields2) ∪ fields.
Proof.
  unfold addPrefixed.
  apply (map_fold_weak_ind
           (fun acc m2 => acc = kmap (prefixed tag) ((fun g => SField i :: g) <$> m2) ∪ fields)).
  - by rewrite fmap_empty, kmap_empty, (left_id_L ∅ (∪)).
  - intros name g m2 acc _ ->.
    by rewrite fmap_insert, (kmap_insert (prefixed tag)), insert_union_l.
Qed.

(** The same loops, ranging over the entries of [fields2] in any order. *)
Lemma addPrefixed_any_order tag i (fields2 fields : gmap string (list step))
    (order : list (string * list step)) :
  order ≡ₚ map_to_list fields2 →
  foldr (fun e acc => <[(tag ++ "__" ++ fst e)%string := SField i :: snd e]> acc)
        fields order
  = addPrefixed tag i fields2 fields.
Proof.
  intros Hperm. rewrite addPrefixed_union.
  assert (list_to_map order = fields2) as <-.
  { rewrite <- (list_to_map_to_list fields2). symmetry.
    apply list_to_map_proper; [apply NoDup_fst_map_to_list | done]. }
  clear Hperm. induction order as [|[name g] order IH]; simpl.
  - by rewrite fmap_empty, kmap_empty, (left_id_L ∅ (∪)).
  - rewrite IH, fmap_insert, (kmap_insert (prefixed tag)), <- insert_union_l. done.
Qed.

Lemma addAll_any_order (fields2 fields : gmap string (list step))
    (order : list (string * list step)) :
  order ≡ₚ map_to_list fields2 →
  foldr (fun e acc => <[fst e := snd e]> acc) fields order = addAll fields2 fields.
Proof.
  intros Hperm. rewrite addAll_union.
  assert (list_to_map order = fields2) as <-.
  { rewrite <- (list_to_map_to_list fields2). symmetry.
    apply list_to_map_proper; [apply NoDup_fst_map_to_list | done]. }
  clear Hperm. induction order as [|[name g] order IH]; simpl.
  - by rewrite (left_id_L ∅ (∪)).
  - by rewrite IH, <- insert_union_l.
Qed.

Lemma entries_wrapFields fields w :
  entries (wrapFields fields w) = (fun inner => w :: inner) <$> entries fields.
Proof. destruct fields as [m|]; simpl; [done | by rewrite fmap_empty]. Qed.

Lemma index_map_wrapFields fields w name :
  index_map (wrapFields fields w) name = (fun inner => w :: inner) <$> index_map fields name.
Proof. unfold index_map. by rewrite entries_wrapFields, lookup_fmap. Qed.

Section Resolution.

Context (tagName : string).

(** An iteration of the loop writes the names of its field over the map
    built so far, and keeps the other names. *)
Lemma entries_fieldStep i f fields :
  entries (fieldStep tagName i f (extractFields (Type_ f) tagName) fields)
  = entries (contribution tagName i f) ∪ entries fields.
Proof.
  unfold contribution, fieldStep.
  destruct (taggedWith tagName f) as [tag|].
  - destruct (isStruct (Type_ f)); simpl.
    + rewrite !addPrefixed_union. by rewrite (right_id_L ∅ (∪)).
    + unfold entries; simpl. by rewrite <- insert_union_l, (left_id_L ∅ (∪)).
  - destruct (Anonymous f).
    + destruct fields as [m|]; simpl.
      * by rewrite addAll_union.
      * by rewrite (right_id_L ∅ (∪)).
    + simpl. by rewrite (left_id_L ∅ (∪)).
Qed.

Lemma index_map_fieldStep i f fields name :
  index_map (fieldStep tagName i f (extractFields (Type_ f) tagName) fields) name
  = match index_map (contribution tagName i f) name with
    | Some g => Some g
    | None => index_map fields name
    end.
Proof.
  unfold index_map. rewrite entries_fieldStep, lookup_union.
  destruct (entries (contribution tagName i f) !! name) as [g|] eqn:E; simpl.
  - by destruct (entries fields !! name).
  - by destruct (entries fields !! name).
Qed.

(** ** Sibling fields: the last declared field wins *)

Lemma index_map_fieldsLoop fs i fields name :
  index_map (fieldsLoop (fun t' => extractFields t' tagName) tagName fs i fields) name
  = match lastContribution tagName fs i name with
    | Some g => Some g
    | None => index_map fields name
    end.
Proof.
  revert i fields. induction fs as [|f rest IH]; intros i fields; simpl; [done|].
  rewrite IH, index_map_fieldStep.
  by destruct (lastContribution tagName rest (S i) name).
Qed.

Lemma lastContribution_None fs i name :
  lastContribution tagName fs i name = None ↔
  ∀ k f, fs !! k = Some f → index_map (contribution tagName (i + k) f) name = None.
Proof.
  revert i. induction fs as [|f rest IH]; intros i; simpl; [done|].
  destruct (lastContribution tagName rest (S i) name) as [g|] eqn:E.
  - split; [done|]. intros Hall. exfalso.
    assert (lastContribution tagName rest (S i) name = None) as E'; [|congruence].
    apply IH. intros k f' Hk.
    replace (S i + k) with (i + S k) by lia. by apply Hall.
  - rewrite IH in E. split.
    + intros Hf [|k] f' Hk; simpl in Hk.
      * injection Hk as <-. by replace (i + 0) with i by lia.
      * replace (i + S k) with (S i + k) by lia. by apply E.
    + intros Hall. specialize (Hall 0 f eq_refl).
      by replace (i + 0) with i in Hall by lia.
Qed.

Lemma lastContribution_Some fs i name g :
  lastContribution tagName fs i name = Some g ↔
  ∃ k f, fs !! k = Some f
         ∧ index_map (contribution tagName (i + k) f) name = Some g
         ∧ ∀ k' f', k < k' → fs !! k' = Some f' →
             index_map (contribution tagName (i + k') f') name = None.
Proof.
  revert i g. induction fs as [|f rest IH]; intros i g; simpl.
  { split; [done | by intros (k & f & ? & _)]. }
  destruct (lastContribution tagName rest (S i) name) as [g'|] eqn:E.
  - (* a later field yields the name *)
    apply IH in E as (k & f0 & Hk & Hg & Hlast). split.
    + intros [= <-]. exists (S k), f0. split; [done|]. split.
      * by replace (i + S k) with (S i + k) by lia.
      * intros [|k'] f' Hlt Hf'; [lia|]. simpl in Hf'.
        replace (i + S k') with (S i + k') by lia. apply (Hlast k' f'); [lia | done].
    + intros (k0 & f1 & Hk0 & Hg1 & Hlast1).
      destruct k0 as [|k0]; simpl in Hk0.
      * specialize (Hlast1 (S k) f0 ltac:(lia) Hk).
        replace (i + S k) with (S i + k) in Hlast1 by lia. congruence.
      * destruct (lt_eq_lt_dec k k0) as [[Hlt | ->] | Hgt].
        -- specialize (Hlast k0 f1 Hlt Hk0).
           replace (i + S k0) with (S i + k0) in Hg1 by lia. congruence.
        -- replace (i + S k0) with (S i + k0) in Hg1 by lia. congruence.
        -- specialize (Hlast1 (S k) f0 ltac:(lia) Hk).
           replace (i + S k) with (S i + k) in Hlast1 by lia. congruence.
  - (* no later field yields it *)
    rewrite lastContribution_None in E. split.
    + intros Hg. exists 0, f. split; [done|]. split.
      * by replace (i + 0) with i by lia.
      * intros [|k'] f' Hlt Hf'; [lia|]. simpl in Hf'.
        replace (i + S k') with (S i + k') by lia. by apply E.
    + intros (k & f0 & Hk & Hg & _). destruct k as [|k]; simpl in Hk.
      * injection Hk as ->. by replace (i + 0) with i in Hg by lia.
      * specialize (E k f0 Hk).
        replace (i + S k) with (S i + k) in Hg by lia. congruence.
Qed.

Lemma extractFields_struct nm s u fs name :
  index_map (extractFields (TStruct nm s u fs) tagName) name
  = lastContribution tagName fs 0 name.
Proof.
  simpl. rewrite index_map_fieldsLoop.
  by destruct (lastContribution tagName fs 0 name).
Qed.

(** ** What one field yields *)

Lemma contribution_scalar i f tag name :
  taggedWith tagName f = Some tag → isStruct (Type_ f) = false →
  index_map (contribution tagName i f) name
  = if decide (tag = name) then Some [SField i] else None.
Proof.
  intros Htag Hs. unfold contribution, fieldStep, index_map. rewrite Htag, Hs. simpl.
  rewrite lookup_insert. by destruct (decide (tag = name)).
Qed.

Lemma contribution_struct i f tag name :
  taggedWith tagName f = Some tag → isStruct (Type_ f) = true →
  index_map (contribution tagName i f) (prefixed tag name)
  = (fun g => SField i :: g) <$> index_map (extractFields (Type_ f) tagName) name.
Proof.
  intros Htag Hs. unfold contribution, fieldStep, index_map. rewrite Htag, Hs. simpl.
  rewrite addPrefixed_union, (right_id_L ∅ (∪)).
  by rewrite (lookup_kmap (prefixed tag)), lookup_fmap.
Qed.

Lemma contribution_struct_Some i f tag name' g' :
  taggedWith tagName f = Some tag → isStruct (Type_ f) = true →
  index_map (contribution tagName i f) name' = Some g' ↔
  ∃ name g, name' = prefixed tag name ∧ g' = SField i :: g
            ∧ index_map (extractFields (Type_ f) tagName) name = Some g.
Proof.
  intros Htag Hs. unfold contribution, fieldStep, index_map. rewrite Htag, Hs. simpl.
  rewrite addPrefixed_union, (right_id_L ∅ (∪)), (lookup_kmap_Some (prefixed tag)).
  split.
  - intros (name & -> & Hl). rewrite lookup_fmap, fmap_Some in Hl.
    destruct Hl as (g & Hl & ->). by exists name, g.
  - intros (name & g & -> & -> & Hl). exists name. split; [done|].
    rewrite lookup_fmap, fmap_Some. by exists g.
Qed.

Lemma contribution_embedded i f name :
  taggedWith tagName f = None → Anonymous f = true →
  index_map (contribution tagName i f) name
  = (fun g => SField i :: g) <$> index_map (extractFields (Type_ f) tagName) name.
Proof.
  intros Htag Ha. unfold contribution, fieldStep. rewrite Htag, Ha.
  apply index_map_wrapFields.
Qed.

Lemma contribution_ignored i f name :
  taggedWith tagName f = None → Anonymous f = false →
  index_map (contribution tagName i f) name = None.
Proof. intros Htag Ha. unfold contribution, fieldStep. by rewrite Htag, Ha. Qed.

(** ** Types without tagged fields *)



End Resolution.

(** ** The binding loop *)

Lemma bindLoop_app fields names i caps :
  bindLoop fields names i caps = caps ++ bindLoop fields names i [].
Proof.
  revert i caps. induction names as [|name rest IH]; intros i caps; simpl.
  { by rewrite app_nil_r. }
  destruct (bool_decide (name = "")); [apply IH|].
  destruct (index_map fields name) as [g|]; [|apply IH].
  rewrite (IH (S i) (caps ++ _)), (IH (S i) [_]). by rewrite <- app_assoc.
Qed.

Lemma bindLoop_cons fields name rest i :
  bindLoop fields (name :: rest) i []
  = (if bool_decide (name = "") then []
     else match index_map fields name with
          | Some g => [mkCapture i g]
          | None => []
          end) ++ bindLoop fields rest (S i) [].
Proof.
  simpl. rewrite bindLoop_app.
  destruct (bool_decide (name = "")); [done|].
  by destruct (index_map fields name).
Qed.

Lemma elem_of_bindLoop fields names i j g :
  mkCapture j g ∈ bindLoop fields names i [] ↔
  ∃ k name, j = i + k ∧ names !! k = Some name ∧ name ≠ ""
            ∧ index_map fields name = Some g.
Proof.
  revert i. induction names as [|name rest IH]; intros i.
  { simpl. split; [by intros ?%elem_of_nil | by intros (k & n & _ & ? & _)]. }
  rewrite bindLoop_cons, elem_of_app, IH. split.
  - intros [Hhere | (k & n & -> & Hk & Hne & Hg)].
    + exists 0, name. case_bool_decide as Hname; [by apply elem_of_nil in Hhere|].
      destruct (index_map fields name) as [g'|] eqn:E; [|by apply elem_of_nil in Hhere].
      apply list_elem_of_singleton in Hhere. injection Hhere as -> ->.
      repeat split; [lia | done..].
    + exists (S k), n. repeat split; [lia | done..].
  - intros (k & n & -> & Hk & Hne & Hg). destruct k as [|k]; simpl in Hk.
    + left. injection Hk as ->. rewrite bool_decide_eq_false_2, Hg by done.
      replace (i + 0) with i by lia. by apply list_elem_of_singleton.
    + right. exists k, n. repeat split; [lia | done..].
Qed.

Lemma bindLoop_sorted fields names i :
  StronglySorted lt (index <$> bindLoop fields names i [])
  ∧ Forall (fun j => i ≤ j) (index <$> bindLoop fields names i []).
Proof.
  revert i. induction names as [|name rest IH]; intros i.
  { simpl. split; constructor. }
  rewrite bindLoop_cons. destruct (IH (S i)) as [Hs Hb].
  assert (Forall (fun j => i ≤ j) (index <$> bindLoop fields rest (S i) [])) as Hb'.
  { eapply Forall_impl; [exact Hb|]. simpl. lia. }
  case_bool_decide; [done|].
  destruct (index_map fields name) as [g|]; [|done].
  simpl. split.
  - constructor; [done|]. eapply Forall_impl; [exact Hb|]. simpl. lia.
  - constructor; [lia | done].
Qed.

Lemma elem_of_bindCaptures fields names j g :
  mkCapture j g ∈ bindCaptures fields names ↔
  1 ≤ j ∧ ∃ name, names !! j = Some name ∧ name ≠ ""
                  ∧ index_map fields name = Some g.
Proof.
  unfold bindCaptures. rewrite elem_of_bindLoop. split.
  - intros (k & n & -> & Hk & Hne & Hg). rewrite lookup_drop in Hk.
    split; [lia|]. by exists n.
  - intros (Hj & n & Hk & Hne & Hg). exists (j - 1), n.
    rewrite lookup_drop. replace (1 + (j - 1)) with j by lia. done.
Qed.

(** ** The frame of a deserialization *)

(** Two variables of one value lie apart, or one lies inside the other. *)
Lemma apart_or_prefix q p v x y :
  readPath q v = Some x → readPath p v = Some y →
  apart q p = true ∨ q `prefix_of` p ∨ p `prefix_of` q.
Proof.
  revert p v. induction q as [|[i|] q IH]; intros p v Hq Hp.
  - right; left. apply prefix_nil.
  - destruct p as [|[j|] p]; [right; right; apply prefix_nil | |].
    + simpl. destruct v as [| | | |vs]; try done. simpl in Hq, Hp.
      case_bool_decide as Hij; [|by left]. subst j. simpl.
      destruct (vs !! i) as [fv|]; [|done]. simpl in Hq, Hp.
      destruct (IH p fv Hq Hp) as [? | [? | ?]]; [by left | |].
      * right; left. by apply prefix_cons.
      * right; right. by apply prefix_cons.
    + by destruct v as [| | |[e|]|].
  - destruct p as [|[j|] p]; [right; right; apply prefix_nil | |].
    + by destruct v as [| | |[e|]|].
    + simpl. destruct v as [| | |[e|]|]; try done. simpl in Hq, Hp.
      destruct (IH p e Hq Hp) as [? | [? | ?]]; [by left | |].
      * right; left. by apply prefix_cons.
      * right; right. by apply prefix_cons.
Qed.

Lemma Return_bind_inv {A B} (o : outcome A) (k : A → outcome B) b :
  o ≫= k = Return b → ∃ a, o = Return a ∧ k a = Return b.
Proof. destruct o as [a|p]; [by exists a | done]. Qed.







(** ** Deserialization returns *)

Lemma forall2b_lookup {A B} (p : A → B → bool) l k i a :
  forall2b p l k = true → l !! i = Some a →
  ∃ b, k !! i = Some b ∧ p a b = true.
Proof.
  revert k i. induction l as [|a' l IH]; intros [|b' k] i H Hi; try done.
  simpl in H. apply andb_true_iff in H as [Hp Hrest].
  destruct i as [|i]; simpl in Hi.
  - injection Hi as <-. by exists b'.
  - by apply (IH k i).
Qed.

Lemma forall2b_insert {A B} (p : A → B → bool) l k i a b :
  forall2b p l k = true → l !! i = Some a → p a b = true →
  forall2b p l (<[i := b]> k) = true.
Proof.
  revert k i. induction l as [|a' l IH]; intros [|b' k] i H Hi Hp; try done.
  simpl in H. apply andb_true_iff in H as [Hp' Hrest].
  destruct i as [|i]; simpl in Hi |- *.
  - injection Hi as <-. by rewrite Hp, Hrest.
  - rewrite Hp'. simpl. by apply IH.
Qed.

Lemma zero_hasType t : hasType t (zero t) = true.
Proof.
  induction t as [[| |] | elem IH | nm s u fs IH] using gotype_nested_ind; try done.
  simpl. induction IH as [|f fs Hf _ IHfs]; [done|]. simpl. by rewrite Hf, IHfs.
Qed.

Lemma setString_total g t fl v s :
  settable g t fl = true → hasType t v = true →
  ∃ v', setString g t fl v (Some s) = Return v' ∧ hasType t v' = true.
Proof.
  revert t fl v. induction g as [|[i|] g IH]; intros t fl v Hs Ht; simpl in Hs |- *.
  - apply andb_true_iff in Hs as [Hro Hstr]. apply negb_true_iff in Hro. rewrite Hro.
    destruct t as [[| |]| |]; try done. destruct v; try done. by eexists.
  - destruct t as [| |nm s0 u fs]; try done.
    destruct v as [| | | |vs]; try done.
    destruct (fs !! i) as [f|] eqn:Hf; [|done]. simpl in Ht.
    destruct (forall2b_lookup _ _ _ _ _ Ht Hf) as (fv & Hfv & Hty). rewrite Hfv.
    destruct (IH _ _ _ Hs Hty) as (fv' & -> & Hty'). simpl.
    eexists; split; [done|]. simpl. by eapply forall2b_insert.
  - destruct t as [|elem|]; try done.
    apply andb_true_iff in Hs as [Hro Hs]. apply negb_true_iff in Hro.
    destruct v as [| | |[e|]|]; try done.
    + simpl in Ht. destruct (IH _ _ _ Hs Ht) as (e' & -> & Hty'). by eexists.
    + rewrite Hro.
      destruct (IH _ _ _ Hs (zero_hasType elem)) as (e' & -> & Hty'). by eexists.
Qed.

Lemma deserialize_total T matches caps v :
  (∀ c, c ∈ caps → settable (get c) T rw = true ∧ index c < length matches) →
  hasType T v = true →
  ∃ v', deserialize T matches caps v = Return v' ∧ hasType T v' = true.
Proof.
  revert v. induction caps as [|c caps IH]; intros v Hc Ht; simpl.
  - by exists v.
  - destruct (Hc c) as [Hs Hi]; [by apply elem_of_cons; left|].
    destruct (lookup_lt_is_Some_2 _ _ Hi) as [s Hm]. rewrite Hm.
    destruct (setString_total _ _ _ _ s Hs Ht) as (v1 & -> & Ht1). simpl.
    apply IH; [|done]. intros c' Hc'. apply Hc. by apply elem_of_cons; right.
Qed.

Lemma allSettable_lookup T tagName name g :
  allSettable T tagName = true →
  index_map (extractFields T tagName) name = Some g → settable g T rw = true.
Proof.
  unfold allSettable, index_map. rewrite forallb_forall. intros Hall Hg.
  apply (Hall (name, g)). apply list_elem_of_In. by apply elem_of_map_to_list.
Qed.

(** The captures of a compiled matcher index the group names of its
    expression and carry getters resolved in its type. *)
Lemma Compile_captures regexp_Compile T expr structTag m c :
  Compile regexp_Compile T expr structTag = Return (inl m) → c ∈ captures m →
  index c < length (SubexpNames (re m))
  ∧ ∃ name, index_map (extractFields T structTag) name = Some (get c).
Proof.
  unfold Compile. intros H Hc.
  case_bool_decide; [done|].
  destruct (negb _); [done|].
  destruct (regexp_Compile expr) as [re0|err]; [|done].
  case_bool_decide; [done|].
  injection H as <-. simpl in *. destruct c as [j g].
  apply elem_of_bindCaptures in Hc as (_ & name & Hj & _ & Hg). split.
  - by eapply lookup_lt_Some.
  - by exists name.
Qed.

(** ** The tests of the repository *)

(** [Example], [TestDeep] and [TestEmbedded] of [re_test.go], with the
    answers of the engine scripted. *)

Example test_Example :
  (r ← MustCompile (fun _ => inl (scripted [""; "k"; "v"] [("a=b", ["a=b"; "a"; "b"])]))
         pair patternKV "rx";
   FindStringStruct pair r "a=b" (zero pair))
  = Return (true, VStruct [VString "a"; VString "b"]).
Proof. reflexivity. Qed.

Example test_TestDeep :
  let engine := fun _ : string =>
    inl (scripted [""; "name"; "address__city"; "address__country"]
           [(leonardo, leonardoFound)]) : regexp_Regexp + error in
  let p := VStruct [VString "Leonardo da Vinci";
                    VStruct [VString "Florence"; VString "Italia"]] in
  (r ← MustCompile engine personDeep "e" "rx";
   FindStringStruct personDeep r leonardo (zero personDeep)) = Return (true, p)
  ∧ (r ← MustCompile engine personDeep "e" "rx";
     FindAllStringStruct personDeep r leonardo 1) = Return (Some [p]).
Proof. split; reflexivity. Qed.

Example test_TestEmbedded :
  let engine := fun _ : string =>
    inl (scripted [""; "name"; "city"; "country"]
           [(leonardo, leonardoFound)]) : regexp_Regexp + error in
  let p := VStruct [VString "Leonardo da Vinci";
                    VStruct [VString "Florence"; VString "Italia"]] in
  (r ← MustCompile engine personEmbedded "e" "rx";
   FindStringStruct personEmbedded r leonardo (zero personEmbedded)) = Return (true, p)
  ∧ (r ← MustCompile engine personEmbedded "e" "rx";
     FindAllStringStruct personEmbedded r leonardo 1) = Return (Some [p]).
Proof. split; reflexivity. Qed.

(** What [reflect] refuses: a string field that is not exported, a field
    with a tag value that is not a string, and a nil embedded pointer that
    is not exported, which [Set] cannot allocate. *)
Example unexported_string_panics :
  setString [SField 0]
    (TStruct "t" false false [mkField "k" [("rx", "k")] false false tString])
    rw (VStruct [VString ""]) (Some "a")
  = Panic PanicReflect.
Proof. reflexivity. Qed.

Example tagged_int_panics :
  setString [SField 0]
    (TStruct "t" false false [mkField "N" [("rx", "n")] false true (TScalar SInt)])
    rw (VStruct [VInt 0]) (Some "12")
  = Panic PanicReflect.
Proof. reflexivity. Qed.

Example unexported_embedded_pointer_panics :
  setString [SField 0; SDeref; SField 0]
    (TStruct "t" false false [mkField "address" [] true false (TPtr address)])
    rw (VStruct [VPtr None]) (Some "Florence")
  = Panic PanicReflect.
Proof. reflexivity. Qed.

(** * The claims *)

(** C1. For the struct type [pair], compiling the pattern [patternKV]
    with tag key [rx] succeeds, and [FindStringStruct] on the input [a=b]
    returns [true] with the target equal to [{K:"a", V:"b"}], whatever the
    target held before.  The engine is the one of package [regexp]: it
    compiles the pattern, names its groups [k] and [v], and matches [a=b]
    with the submatches [a] and [b]. *)
Theorem C1_pair_scenario (regexp_Compile : string → regexp_Regexp + error)
    (re0 : regexp_Regexp) (k0 v0 : string) :
  regexp_Compile patternKV = inl re0 →
  SubexpNames re0 = [""; "k"; "v"] →
  FindStringSubmatch re0 "a=b" = Some ["a=b"; "a"; "b"] →
  ∃ m, Compile regexp_Compile pair patternKV "rx" = Return (inl m)
       ∧ FindStringStruct pair m "a=b" (VStruct [VString k0; VString v0])
         = Return (true, VStruct [VString "a"; VString "b"]).
Proof.
  intros Hc Hn Hf. eexists. split.
  - unfold Compile. rewrite Hc, Hn. reflexivity.
  - unfold FindStringStruct. simpl. rewrite Hf. reflexivity.
Qed.

Lemma C1_pair_scenario_witness :
  let engine := fun _ : string =>
    inl (scripted [""; "k"; "v"] [("a=b", ["a=b"; "a"; "b"])]) : regexp_Regexp + error in
  ∃ m, Compile engine pair patternKV "rx" = Return (inl m)
       ∧ FindStringStruct pair m "a=b" (VStruct [VString "old"; VString ""])
         = Return (true, VStruct [VString "a"; VString "b"]).
Proof.
  intros engine.
  apply (C1_pair_scenario engine
           (scripted [""; "k"; "v"] [("a=b", ["a=b"; "a"; "b"])])); reflexivity.
Defined.

(** C2. In every struct type, a field at position [i] that carries the
    non-empty tag value [t] and whose type is a struct type implementing
    neither the setter nor the text-unmarshaler interface yields, for
    every name [n] that [extractFields] finds in the type of the field
    with getter [p], the name [t ++ "__" ++ n] with the getter that first
    selects field [i] and then follows [p]; the enclosing mapping holds
    that entry unless a field declared later yields the same name.  In
    the nested scenario the groups [name], [address__city] and
    [address__country] populate [Name], [Address.City] and
    [Address.Country]. *)
Theorem C2_tagged_struct_field (regexp_Compile : string → regexp_Regexp + error)
    (re0 : regexp_Regexp) (expr : string)
    (tagName nm : string) (s u : bool) (fs : list (StructField gotype))
    (i : nat) (f : StructField gotype) (t n : string) (p : getter) :
  fs !! i = Some f →
  taggedWith tagName f = Some t →
  kind (Type_ f) = KStruct →
  assignableToSetter (Type_ f) = false →
  assignableToTextUnmarshaler (Type_ f) = false →
  index_map (extractFields (Type_ f) tagName) n = Some p →
  regexp_Compile expr = inl re0 →
  SubexpNames re0 = [""; "name"; "address__city"; "address__country"] →
  FindStringSubmatch re0 "X / Y / Z" = Some ["X / Y / Z"; "X"; "Y"; "Z"] →
  index_map (contribution tagName i f) (t ++ "__" ++ n)%string = Some (SField i :: p)
  ∧ ((∀ j f', i < j → fs !! j = Some f' →
        index_map (contribution tagName j f') (t ++ "__" ++ n)%string = None) →
     index_map (extractFields (TStruct nm s u fs) tagName) (t ++ "__" ++ n)%string
     = Some (SField i :: p))
  ∧ ∃ m, Compile regexp_Compile personDeep expr "rx" = Return (inl m)
         ∧ FindStringStruct personDeep m "X / Y / Z" (zero personDeep)
           = Return (true, VStruct [VString "X";
                                    VStruct [VString "Y"; VString "Z"]]).
Proof.
  intros Hf Htag Hk Hset Hun Hp Hc Hn Hm.
  assert (isStruct (Type_ f) = true) as Hs.
  { unfold isStruct. rewrite Hk, Hset, Hun. simpl. apply orb_true_r. }
  assert (index_map (contribution tagName i f) (prefixed t n) = Some (SField i :: p)) as Hi.
  { rewrite (contribution_struct _ _ _ t) by done. by rewrite Hp. }
  split; [exact Hi|]. split.
  - intros Hlater. rewrite extractFields_struct.
    apply lastContribution_Some. by exists i, f.
  - eexists. split.
    + unfold Compile. rewrite Hc, Hn. reflexivity.
    + unfold FindStringStruct. simpl. rewrite Hm. reflexivity.
Qed.

Lemma C2_tagged_struct_field_witness :
  let names := [""; "name"; "address__city"; "address__country"] in
  let re0 := scripted names [("X / Y / Z", ["X / Y / Z"; "X"; "Y"; "Z"])] in
  index_map (contribution "rx" 1 (mkField "Address" [("rx", "address")] false true cityCountry))
            "address__city" = Some [SField 1; SField 0]
  ∧ index_map (extractFields personDeep "rx") "address__city" = Some [SField 1; SField 0]
  ∧ ∃ m, Compile (fun _ => inl re0) personDeep "e" "rx" = Return (inl m)
         ∧ FindStringStruct personDeep m "X / Y / Z" (zero personDeep)
           = Return (true, VStruct [VString "X";
                                    VStruct [VString "Y"; VString "Z"]]).
Proof.
  intros names re0.
  destruct (C2_tagged_struct_field (fun _ => inl re0) re0 "e" "rx" "person" false false
              [mkField "Name" [("rx", "name")] false true tString;
               mkField "Address" [("rx", "address")] false true cityCountry]
              1 (mkField "Address" [("rx", "address")] false true cityCountry)
              "address" "city" [SField 0])
    as (H1 & H2 & H3); try reflexivity.
  split; [exact H1|]. split; [|exact H3].
  apply H2. intros j f' Hj Hl. destruct j as [|[|j]]; [lia | lia | done].
Defined.

(** C3. In every compiled matcher the captures are those of the group
    names of the engine taken in order from position 1 on: position [j]
    has a capture with getter [g] exactly when [j >= 1], the name at [j]
    is not empty and the resolved mapping gives [g] for it; position 0,
    empty names and unmapped names have none; and the positions of the
    captures are strictly increasing. *)
Theorem C3_bindings_by_ordinal (regexp_Compile : string → regexp_Regexp + error)
    (T : gotype) (expr structTag : string) (m : Regexp) :
  Compile regexp_Compile T expr structTag = Return (inl m) →
  (∀ j g, mkCapture j g ∈ captures m ↔
          1 ≤ j ∧ ∃ name, SubexpNames (re m) !! j = Some name ∧ name ≠ ""
                          ∧ index_map (extractFields T structTag) name = Some g)
  ∧ StronglySorted lt (index <$> captures m).
Proof.
  unfold Compile. intros H.
  case_bool_decide; [done|].
  destruct (negb _); [done|].
  destruct (regexp_Compile expr) as [re0|err]; [|done].
  case_bool_decide; [done|].
  injection H as <-. simpl. split.
  - intros j g. apply elem_of_bindCaptures.
  - apply bindLoop_sorted.
Qed.

Lemma C3_bindings_by_ordinal_witness :
  let re0 := scripted [""; "name"; ""; "other"; "country"] [] in
  ∃ m, Compile (fun _ => inl re0) personEmbedded "e" "rx" = Return (inl m)
       ∧ (∀ j g, mkCapture j g ∈ captures m ↔
            1 ≤ j ∧ ∃ name, SubexpNames (re m) !! j = Some name ∧ name ≠ ""
                     ∧ index_map (extractFields personEmbedded "rx") name = Some g)
       ∧ StronglySorted lt (index <$> captures m)
       ∧ captures m = [mkCapture 1 [SField 0]; mkCapture 4 [SField 1; SField 1]].
Proof.
  intros re0. eexists. split; [reflexivity|].
  destruct (C3_bindings_by_ordinal (fun _ => inl re0) personEmbedded "e" "rx" _ eq_refl)
    as [H1 H2].
  split; [exact H1|]. split; [exact H2 | reflexivity].
Defined.

(** C4, as stated: on an input without a match [FindAllStringStruct]
    returns an empty sequence that is not the absent value.  It returns
    the nil slice. *)
Lemma C4_no_match_returns_nil :
  Compile (fun _ => inl onlyK) pair "(?P<k>a)" "rx" = Return (inl onlyKMatcher)
  ∧ FindAllStringSubmatch onlyK "zzz" (-1) = None
  ∧ FindAllStringStruct pair onlyKMatcher "zzz" (-1) = Return None
  ∧ FindAllStringStruct pair onlyKMatcher "zzz" (-1) ≠ Return (Some []).
Proof. repeat split; done. Qed.

(** C4, amended. When the engine reports no match, [FindAllStringStruct]
    panics on nothing and returns a slice of length zero; when the engine
    answers with the nil slice, as [regexp] does for no match, the result
    is the nil slice as well. *)
Theorem C4_no_match_empty (T : gotype) (r : Regexp) (s : string) (n : Z) :
  sliceLen (FindAllStringSubmatch (re r) s n) = 0 →
  ∃ res, FindAllStringStruct T r s n = Return res
         ∧ sliceLen res = 0
         ∧ (FindAllStringSubmatch (re r) s n = None → res = None).
Proof.
  unfold FindAllStringStruct. intros Hlen.
  destruct (FindAllStringSubmatch (re r) s n) as [[|m ms]|]; simpl in *.
  - by exists (Some []).
  - done.
  - by exists None.
Qed.

Lemma C4_no_match_empty_witness :
  ∃ res, FindAllStringStruct pair onlyKMatcher "zzz" (-1) = Return res
         ∧ sliceLen res = 0
         ∧ (FindAllStringSubmatch (re onlyKMatcher) "zzz" (-1) = None → res = None).
Proof. apply (C4_no_match_empty pair onlyKMatcher "zzz" (-1)). reflexivity. Defined.

(** C5, as stated: after a call without a match the record is
    zero-valued.  The record is the target of the caller, and it is left
    as it was. *)
Lemma C5_no_match_target_not_zeroed :
  FindStringSubmatch (re onlyKMatcher) "zzz" = None
  ∧ FindStringStruct pair onlyKMatcher "zzz" (VStruct [VString "old"; VString "kept"])
    = Return (false, VStruct [VString "old"; VString "kept"])
  ∧ VStruct [VString "old"; VString "kept"] ≠ zero pair.
Proof. repeat split; done. Qed.

(** C5, amended. When the engine reports no match, [FindStringStruct]
    returns [false] and writes nothing: the target holds what it held
    before the call, so it is zero-valued exactly when the caller passed a
    zero-valued target. *)
Theorem C5_no_match_target_unchanged (T : gotype) (r : Regexp) (s : string)
    (target : value) :
  FindStringSubmatch (re r) s = None →
  FindStringStruct T r s target = Return (false, target).
Proof. unfold FindStringStruct. by intros ->. Qed.

Lemma C5_no_match_target_unchanged_witness :
  FindStringStruct pair onlyKMatcher "zzz" (zero pair) = Return (false, zero pair).
Proof. apply (C5_no_match_target_unchanged pair onlyKMatcher "zzz"). reflexivity. Defined.



(** C7, as stated: the record of [FindStringStruct] equals the first
    element of [FindAllStringStruct] with limit 1.  With a target that
    holds a value in a field no capture is bound to, the two differ. *)
Lemma C7_target_with_content_differs :
  Compile (fun _ => inl onlyK) pair "(?P<k>a)" "rx" = Return (inl onlyKMatcher)
  ∧ FindStringStruct pair onlyKMatcher "a" (VStruct [VString ""; VString "kept"])
    = Return (true, VStruct [VString "a"; VString "kept"])
  ∧ FindAllStringStruct pair onlyKMatcher "a" 1
    = Return (Some [VStruct [VString "a"; VString ""]])
  ∧ VStruct [VString "a"; VString "kept"] ≠ VStruct [VString "a"; VString ""].
Proof. repeat split; done. Qed.

(** C7, amended. For every compiled matcher and every input on which
    the engine finds a match, which is also the single match it reports
    under limit 1: called on a zero-valued target, [FindStringStruct]
    leaves in the target the record [v] exactly when
    [FindAllStringStruct] with limit 1 returns the sequence of [v] alone;
    and when the engine reports a submatch for each group name and every
    getter resolved in the type is settable, both do return.  Records are
    compared as [value]s: a pointer field by what it points to. *)
Theorem C7_one_equals_first_of_all (regexp_Compile : string → regexp_Regexp + error)
    (T : gotype) (expr structTag : string) (r : Regexp) (s : string)
    (matches : list string) :
  Compile regexp_Compile T expr structTag = Return (inl r) →
  FindStringSubmatch (re r) s = Some matches →
  FindAllStringSubmatch (re r) s 1 = Some [matches] →
  (∀ v, FindStringStruct T r s (zero T) = Return (true, v) ↔
        FindAllStringStruct T r s 1 = Return (Some [v]))
  ∧ (length matches = length (SubexpNames (re r)) →
     allSettable T structTag = true →
     ∃ v, FindStringStruct T r s (zero T) = Return (true, v)
          ∧ FindAllStringStruct T r s 1 = Return (Some [v])).
Proof.
  intros Hc Hone Hall. unfold FindStringStruct, FindAllStringStruct.
  rewrite Hone, Hall. simpl. split.
  - intros v. destruct (deserialize T matches (captures r) (zero T)) as [v'|p]; simpl.
    + split; by intros [= ->].
    + done.
  - intros Hlen Hset.
    destruct (deserialize_total T matches (captures r) (zero T)) as (v & -> & _).
    + intros c Hin.
      destruct (Compile_captures _ _ _ _ _ _ Hc Hin) as (Hi & name & Hg). split.
      * by eapply allSettable_lookup.
      * by rewrite Hlen.
    + apply zero_hasType.
    + by exists v.
Qed.

Lemma C7_one_equals_first_of_all_witness :
  let re0 := scripted [""; "name"; "city"; "country"] [(leonardo, leonardoFound)] in
  let v := VStruct [VString "Leonardo da Vinci";
                    VStruct [VString "Florence"; VString "Italia"]] in
  ∃ r, Compile (fun _ => inl re0) personEmbedded "e" "rx" = Return (inl r)
       ∧ FindStringStruct personEmbedded r leonardo (zero personEmbedded) = Return (true, v)
       ∧ FindAllStringStruct personEmbedded r leonardo 1 = Return (Some [v]).
Proof.
  intros re0 v. eexists. split; [reflexivity|].
  destruct (C7_one_equals_first_of_all (fun _ => inl re0) personEmbedded "e" "rx" _
              leonardo leonardoFound eq_refl eq_refl eq_refl) as [Hiff Hret].
  destruct (Hret eq_refl eq_refl) as (v' & Hone & Hall).
  split; [reflexivity|]. apply Hiff. reflexivity.
Defined.





Example last_declared_wins_embedded_after :
  index_map (extractFields
               (TStruct "t" false false
                  [mkField "City" [("rx", "city")] false true tString;
                   mkField "address" [] true false address]) "rx") "city"
  = Some [SField 1; SField 0].
Proof. reflexivity. Qed.

Example last_declared_wins_embedded_before :
  index_map (extractFields
               (TStruct "t" false false
                  [mkField "address" [] true false address;
                   mkField "City" [("rx", "city")] false true tString]) "rx") "city"
  = Some [SField 1].
Proof. reflexivity. Qed.



(** * Further properties of the code *)

(** ** [Compile] and [MustCompile] *)

Lemma Compile_inl_inv regexp_Compile T expr structTag m :
  Compile regexp_Compile T expr structTag = Return (inl m) ↔
  structTag ≠ "" ∧ kind T = KStruct ∧ regexp_Compile expr = inl (re m)
  ∧ len (extractFields T structTag) ≠ 0
  ∧ captures m = bindCaptures (extractFields T structTag) (SubexpNames (re m)).
Proof.
  unfold Compile. split.
  - intros H. case_bool_decide as Ht; [done|].
    case_bool_decide as Hk; [|done]. simpl in H.
    destruct (regexp_Compile expr) as [re0|err]; [|done].
    case_bool_decide as Hl; [done|]. by injection H as <-.
  - intros (Ht & Hk & Hre & Hl & Hc).
    rewrite bool_decide_eq_false_2 by done.
    rewrite bool_decide_eq_true_2 by done. simpl. rewrite Hre.
    rewrite bool_decide_eq_false_2 by done. destruct m as [r c]. simpl in *.
    by rewrite Hc.
Qed.

(** X1. [Compile] returns an error exactly when the tag key is not empty,
    [T] is a struct type and the engine refuses the pattern, and the error
    is the engine's own.  The fields of [T] are looked at only after the
    pattern compiled: a refused pattern is reported as an error also for a
    type without tagged fields. *)
Theorem X1_compile_error (regexp_Compile : string → regexp_Regexp + error)
    (T : gotype) (expr structTag : string) (err : error) :
  Compile regexp_Compile T expr structTag = Return (inr err) ↔
  structTag ≠ "" ∧ kind T = KStruct ∧ regexp_Compile expr = inr err.
Proof.
  unfold Compile. split.
  - intros H. case_bool_decide as Ht; [done|].
    case_bool_decide as Hk; [|done]. simpl in H.
    destruct (regexp_Compile expr) as [re0|err']; [by case_bool_decide|].
    by injection H as <-.
  - intros (Ht & Hk & Hre).
    rewrite bool_decide_eq_false_2 by done.
    rewrite bool_decide_eq_true_2 by done. simpl. by rewrite Hre.
Qed.

(** X2. [Compile] panics in three cases and no other, tested in this
    order: the tag key is empty; [T] is not a struct type; the pattern
    compiled and no name was resolved in [T].  An empty tag key or a type
    that is not a struct panics whatever the pattern, also when the engine
    would refuse it. *)
Theorem X2_compile_panics (regexp_Compile : string → regexp_Regexp + error)
    (T : gotype) (expr structTag : string) (p : panic) :
  Compile regexp_Compile T expr structTag = Panic p ↔
  (structTag = "" ∧ p = PanicInvalidTagName)
  ∨ (structTag ≠ "" ∧ kind T ≠ KStruct ∧ p = PanicNotStruct)
  ∨ (structTag ≠ "" ∧ kind T = KStruct ∧ p = PanicNoFields
     ∧ len (extractFields T structTag) = 0
     ∧ ∃ re0, regexp_Compile expr = inl re0).
Proof.
  unfold Compile. split.
  - intros H. case_bool_decide as Ht; [left; by injection H as <-|].
    case_bool_decide as Hk; simpl in H; [|right; left; by injection H as <-].
    destruct (regexp_Compile expr) as [re0|err]; [|done].
    case_bool_decide as Hl; [|done]. injection H as <-.
    right; right. repeat split; try done. by exists re0.
  - intros [(-> & ->) | [(Ht & Hk & ->) | (Ht & Hk & -> & Hl & re0 & Hre)]].
    + done.
    + rewrite bool_decide_eq_false_2 by done.
      by rewrite bool_decide_eq_false_2 by done.
    + rewrite bool_decide_eq_false_2 by done.
      rewrite bool_decide_eq_true_2 by done. simpl. rewrite Hre.
      by rewrite bool_decide_eq_true_2 by done.
Qed.

(** X3. [MustCompile] returns exactly the matcher that [Compile]
    returns, and it panics with an error exactly when the tag key is not
    empty, [T] is a struct type and the engine refuses the pattern with
    that error: the error [Compile] would return.  It never returns
    without a matcher. *)
Theorem X3_must_compile (regexp_Compile : string → regexp_Regexp + error)
    (T : gotype) (expr structTag : string) :
  (∀ m, MustCompile regexp_Compile T expr structTag = Return m ↔
        Compile regexp_Compile T expr structTag = Return (inl m))
  ∧ (∀ err, MustCompile regexp_Compile T expr structTag = Panic (PanicError err) ↔
        structTag ≠ "" ∧ kind T = KStruct ∧ regexp_Compile expr = inr err).
Proof.
  split.
  - intros m. unfold MustCompile.
    destruct (Compile regexp_Compile T expr structTag) as [[m'|err']|p']; simpl;
      split; (done || by intros [= ->]).
  - intros err. unfold MustCompile, Compile. split.
    + intros H. case_bool_decide as Ht; [done|].
      case_bool_decide as Hk; [|done]. simpl in H.
      destruct (regexp_Compile expr) as [re0|err']; simpl in H.
      * by case_bool_decide.
      * by injection H as <-.
    + intros (Ht & Hk & Hre).
      rewrite bool_decide_eq_false_2 by done.
      rewrite bool_decide_eq_true_2 by done. simpl. by rewrite Hre.
Qed.

(** ** The names and getters of a resolved mapping *)

Lemma taggedWith_nonempty tagName f tag :
  taggedWith tagName f = Some tag → tag ≠ "".
Proof.
  unfold taggedWith. destruct (Lookup (Tag f) tagName) as [t|]; [|done].
  case_bool_decide; [done|]. by intros [= <-].
Qed.

Lemma extractFields_nameOf tagName t n g :
  index_map (extractFields t tagName) n = Some g → nameOf tagName g t = Some n.
Proof.
  revert n g.
  induction t as [k | elem IH | nm s u fs IH] using gotype_nested_ind; intros n g Hg.
  - done.
  - simpl in Hg. rewrite index_map_wrapFields, fmap_Some in Hg.
    destruct Hg as (p & Hp & ->). simpl. by apply IH.
  - rewrite extractFields_struct, lastContribution_Some in Hg.
    destruct Hg as (k & f & Hk & Hg & _). simpl in Hg.
    rewrite Forall_lookup in IH. specialize (IH k f Hk). simpl in IH.
    destruct (taggedWith tagName f) as [tag|] eqn:Htag.
    + destruct (isStruct (Type_ f)) eqn:Hs.
      * destruct (proj1 (contribution_struct_Some tagName k f tag n g Htag Hs) Hg)
          as (n' & g' & -> & -> & Hg').
        simpl. rewrite Hk, Htag, Hs. by rewrite (IH _ _ Hg').
      * rewrite (contribution_scalar _ _ _ tag) in Hg by done.
        case_decide as Hn; [|done]. injection Hg as <-. subst n.
        simpl. by rewrite Hk, Htag, Hs.
    + destruct (Anonymous f) eqn:Ha.
      * rewrite contribution_embedded, fmap_Some in Hg by done.
        destruct Hg as (g' & Hg' & ->). simpl. rewrite Hk, Htag, Ha. by apply IH.
      * by rewrite contribution_ignored in Hg.
Qed.

Lemma nameOf_nonempty tagName g t n :
  nameOf tagName g t = Some n → n ≠ "".
Proof.
  revert t n. induction g as [|[i|] g IH]; intros t n H; simpl in H; [done| |].
  - destruct t as [| |nm s u fs]; try done.
    destruct (fs !! i) as [f|]; [|done].
    destruct (taggedWith tagName f) as [tag|] eqn:Htag.
    + apply taggedWith_nonempty in Htag.
      destruct (isStruct (Type_ f)).
      * destruct (nameOf tagName g (Type_ f)) as [n'|]; [|done].
        injection H as <-. unfold prefixed. by destruct tag.
      * destruct g; [|done]. by injection H as <-.
    + destruct (Anonymous f); [by eapply IH | done].
  - destruct t as [|elem|]; try done. by eapply IH.
Qed.

Lemma nameOf_typeAt tagName g t n :
  nameOf tagName g t = Some n →
  ∃ t', typeAt g t = Some t' ∧ isStruct t' = false.
Proof.
  revert t n. induction g as [|[i|] g IH]; intros t n H; simpl in H; [done| |].
  - destruct t as [| |nm s u fs]; try done. simpl.
    destruct (fs !! i) as [f|]; [|done]. simpl.
    destruct (taggedWith tagName f) as [tag|].
    + destruct (isStruct (Type_ f)) eqn:Hs.
      * apply fmap_Some in H as (n' & Hn' & _). by eapply IH.
      * destruct g; [|done]. by exists (Type_ f).
    + destruct (Anonymous f); [by eapply IH | done].
  - destruct t as [|elem|]; try done. simpl. by eapply IH.
Qed.


(** X4. The getter of an entry of the resolved mapping tells its name:
    walking the getter through the type and joining the tag values on the
    way gives the name back.  So no two names of a mapping share a
    getter. *)
Theorem X4_getter_determines_name (tagName : string) (T : gotype)
    (n1 n2 : string) (g : list step) :
  index_map (extractFields T tagName) n1 = Some g →
  (nameOf tagName g T = Some n1)
  ∧ (index_map (extractFields T tagName) n2 = Some g → n1 = n2).
Proof.
  intros H1. pose proof (extractFields_nameOf _ _ _ _ H1) as Hn1.
  split; [done|]. intros H2. apply extractFields_nameOf in H2. congruence.
Qed.

Lemma X4_getter_determines_name_witness :
  nameOf "rx" [SField 1; SField 0] personDeep = Some "address__city"
  ∧ (index_map (extractFields personDeep "rx") "address__city" = Some [SField 1; SField 0] →
     "address__city" = "address__city").
Proof.
  apply (X4_getter_determines_name "rx" personDeep "address__city" "address__city"
           [SField 1; SField 0]).
  reflexivity.
Defined.

(** X5. No resolved mapping has an entry for the empty name, in any type
    and under any tag key: the test for an empty group name in the loop of
    [Compile] skips nothing the mapping could bind. *)
Theorem X5_no_empty_name (tagName : string) (T : gotype) :
  index_map (extractFields T tagName) "" = None.
Proof.
  destruct (index_map (extractFields T tagName) "") as [g|] eqn:E; [|done].
  apply extractFields_nameOf in E. by apply nameOf_nonempty in E.
Qed.

(** X6. Every getter of a resolved mapping fits the type it was resolved
    in: each of its steps selects a field that the struct type has, or
    dereferences a pointer type, and the getter ends on a field that
    [extractFields] did not recurse into (the type at its end is not
    [isStruct]).  No getter asks for a field out of range. *)
Theorem X6_getter_fits_type (tagName : string) (T : gotype) (n : string)
    (g : list step) :
  index_map (extractFields T tagName) n = Some g →
  ∃ t', typeAt g T = Some t' ∧ isStruct t' = false.
Proof. intros H. apply extractFields_nameOf in H. by eapply nameOf_typeAt. Qed.

Lemma X6_getter_fits_type_witness :
  ∃ t', typeAt [SField 1; SField 0] personDeep = Some t' ∧ isStruct t' = false.
Proof.
  apply (X6_getter_fits_type "rx" personDeep "address__city" [SField 1; SField 0]).
  reflexivity.
Defined.




(** ** Fields that [SetString] refuses *)

Lemma setString_refused g t fl t' fl' :
  typeAt g t = Some t' → flagAt g t fl = Some fl' →
  t' ≠ TScalar SString ∨ isRO fl' = true →
  ∀ v x, ∃ p, setString g t fl v x = Panic p.
Proof.
  revert t fl. induction g as [|[i|] g IH]; intros t fl Ht Hfl Hbad v x; simpl in *.
  - injection Ht as <-. injection Hfl as <-.
    destruct x as [s|]; [|by eexists].
    destruct (isRO fl) eqn:Hro; [by eexists|].
    destruct Hbad as [Hbad | ?]; [|done].
    destruct t as [[| |]| |]; try done; try by eexists.
    all: destruct v; by eexists.
  - destruct t as [| |nm s u fs]; try done.
    destruct (fs !! i) as [f|]; [|done]. simpl in Ht, Hfl.
    destruct v as [| | | |vs]; try by eexists.
    destruct (vs !! i) as [fv|]; [|by eexists].
    destruct (IH _ _ Ht Hfl Hbad fv x) as [p ->]. by eexists.
  - destruct t as [|elem|]; try done.
    destruct v as [| | |[e|]|]; try by eexists.
    + destruct (IH _ _ Ht Hfl Hbad e x) as [p ->]. by eexists.
    + destruct (isRO fl); [by eexists|].
      destruct (IH _ _ Ht Hfl Hbad (zero elem) x) as [p ->]. by eexists.
Qed.

Lemma deserialize_refused T matches caps c :
  c ∈ caps →
  (∀ v x, ∃ p, setString (get c) T rw v x = Panic p) →
  ∀ v, ∃ p, deserialize T matches caps v = Panic p.
Proof.
  intros Hc Hbad. induction caps as [|c0 caps IH]; intros v.
  { by apply elem_of_nil in Hc. }
  simpl. apply elem_of_cons in Hc as [<- | Hc].
  - destruct (Hbad v (matches !! index c)) as [p ->]. by eexists.
  - destruct (setString (get c0) T rw v (matches !! index c0)) as [v1|p]; simpl.
    + by apply IH.
    + by eexists.
Qed.

(** X8. When a group of the pattern is bound to a field that is not a
    string, or that [reflect] holds read-only (the field is not
    exported, or a named field on the way to it is not), every call of
    [FindStringStruct] on an input that matches panics, whatever the
    target holds and whatever the group matched; so does every call of
    [FindAllStringStruct] that finds a match.  [Compile] accepts such a
    type: the tagged branch of [extractFields] binds every field that is
    not [isStruct] without looking at its kind. *)
Theorem X8_refused_field_panics (regexp_Compile : string → regexp_Regexp + error)
    (T : gotype) (expr structTag : string) (m : Regexp)
    (j : nat) (n : string) (g : list step) (t' : gotype) (fl' : flagRO) :
  Compile regexp_Compile T expr structTag = Return (inl m) →
  1 ≤ j → SubexpNames (re m) !! j = Some n →
  index_map (extractFields T structTag) n = Some g →
  typeAt g T = Some t' → flagAt g T rw = Some fl' →
  t' ≠ TScalar SString ∨ isRO fl' = true →
  (∀ s matches target, FindStringSubmatch (re m) s = Some matches →
     ∃ p, FindStringStruct T m s target = Panic p)
  ∧ (∀ s k first rest, FindAllStringSubmatch (re m) s k = Some (first :: rest) →
     ∃ p, FindAllStringStruct T m s k = Panic p).
Proof.
  intros Hc Hj Hn Hg Ht Hfl Hbad.
  apply Compile_inl_inv in Hc as (_ & _ & _ & _ & Hcaps).
  assert (mkCapture j g ∈ captures m) as Hin.
  { rewrite Hcaps. apply elem_of_bindCaptures. split; [done|]. exists n.
    repeat split; [done| |done].
    eapply nameOf_nonempty. by eapply extractFields_nameOf. }
  pose proof (setString_refused _ _ _ _ _ Ht Hfl Hbad) as Hset.
  split.
  - intros s matches target Hm. unfold FindStringStruct. rewrite Hm.
    destruct (deserialize_refused T matches _ _ Hin Hset target) as [p ->].
    by eexists.
  - intros s k first rest Hm. unfold FindAllStringStruct. rewrite Hm. simpl.
    destruct (deserialize_refused T first _ _ Hin Hset (zero T)) as [p ->].
    by eexists.
Qed.

Lemma X8_refused_field_panics_witness :
  let re0 := scripted [""; "name"; "n"] [("ann 7", ["ann 7"; "ann"; "7"])] in
  ∃ m, Compile (fun _ => inl re0) counted "e" "rx" = Return (inl m)
       ∧ (∃ p, FindStringStruct counted m "ann 7" (zero counted) = Panic p)
       ∧ (∃ p, FindAllStringStruct counted m "ann 7" (-1) = Panic p).
Proof.
  intros re0. eexists. split; [reflexivity|].
  destruct (X8_refused_field_panics (fun _ => inl re0) counted "e" "rx" _
              2 "n" [SField 1] (TScalar SInt) rw
              eq_refl ltac:(lia) eq_refl eq_refl eq_refl eq_refl ltac:(by left))
    as [Hone Hall].
  split.
  - by apply (Hone "ann 7" ["ann 7"; "ann"; "7"]).
  - by apply (Hall "ann 7" (-1)%Z ["ann 7"; "ann"; "7"] []).
Defined.

(** ** What a match leaves in the target *)






(** ** [FindAllStringStruct], match by match *)

Lemma deserializeAll_Forall2 T caps matches z res :
  deserializeAll T caps matches (replicate (length matches) z) = Return res ↔
  Forall2 (fun m v => deserialize T m caps z = Return v) matches res.
Proof.
  revert res. induction matches as [|m matches IH]; intros res; simpl.
  - split.
    + intros [= <-]. constructor.
    + intros H. by apply Forall2_nil_inv_l in H as ->.
  - split.
    + intros H. apply Return_bind_inv in H as (v & Hv & H).
      apply Return_bind_inv in H as (res' & Hres & [= <-]).
      constructor; [done | by apply IH].
    + intros H. apply Forall2_cons_inv_l in H as (v & res' & Hv & Hres & ->).
      rewrite Hv. simpl. apply IH in Hres. by rewrite Hres.
Qed.

(** X10. When the engine finds matches, [FindAllStringStruct] returns a
    sequence exactly when deserializing each match into a zero value
    returns, and the sequence then holds these records match by match:
    as many as the engine found, in its order, none of them nil.  A panic
    on one match is a panic of the call. *)
Theorem X10_find_all_match_by_match (T : gotype) (r : Regexp) (s : string) (n : Z)
    (matches : list (list string)) (res : option (list value)) :
  FindAllStringSubmatch (re r) s n = Some matches →
  FindAllStringStruct T r s n = Return res ↔
  ∃ records, res = Some records
    ∧ Forall2 (fun m v => deserialize T m (captures r) (zero T) = Return v)
              matches records.
Proof.
  intros Hm. unfold FindAllStringStruct. rewrite Hm. split.
  - intros H. apply Return_bind_inv in H as (records & Hd & [= <-]).
    exists records. split; [done|]. by apply deserializeAll_Forall2.
  - intros (records & -> & Hall). apply deserializeAll_Forall2 in Hall.
    by rewrite Hall.
Qed.

Lemma X10_find_all_match_by_match_witness :
  FindAllStringStruct pair onlyKMatcher "a" (-1) = Return (Some [VStruct [VString "a"; VString ""]])
  ↔ ∃ records, Some [VStruct [VString "a"; VString ""]] = Some records
      ∧ Forall2 (fun m v => deserialize pair m (captures onlyKMatcher) (zero pair) = Return v)
                [["a"; "a"]] records.
Proof. apply (X10_find_all_match_by_match pair onlyKMatcher "a" (-1) [["a"; "a"]]). reflexivity. Defined.

(** ** Calls that return *)

Lemma setString_hasType g t fl v x v' :
  setString g t fl v x = Return v' → hasType t v = true → hasType t v' = true.
Proof.
  revert t fl v v'. induction g as [|[i|] g IH]; intros t fl v v' Hset Hty; simpl in Hset.
  - destruct x as [s|]; [|done]. destruct (isRO fl); [done|].
    destruct t as [[| |]| |]; try done. destruct v; try done. by injection Hset as <-.
  - destruct t as [| |nm s u fs]; try done.
    destruct v as [| | | |vs]; try done.
    destruct (fs !! i) as [f|] eqn:Hf; [|done].
    destruct (vs !! i) as [fv|] eqn:Hv; [|done].
    apply Return_bind_inv in Hset as (fv' & Hrec & [= <-]). simpl in Hty |- *.
    destruct (forall2b_lookup _ _ _ _ _ Hty Hf) as (fv0 & Hfv0 & Hty0).
    rewrite Hv in Hfv0. injection Hfv0 as <-.
    eapply forall2b_insert; [done | done |]. by eapply IH.
  - destruct t as [|elem|]; try done.
    destruct v as [| | |[e|]|]; try done.
    + apply Return_bind_inv in Hset as (e' & Hrec & [= <-]). simpl in Hty |- *.
      by eapply IH.
    + destruct (isRO fl); [done|].
      apply Return_bind_inv in Hset as (e' & Hrec & [= <-]). simpl.
      eapply IH; [done | apply zero_hasType].
Qed.

Lemma deserialize_hasType T matches caps v v' :
  deserialize T matches caps v = Return v' → hasType T v = true → hasType T v' = true.
Proof.
  revert v. induction caps as [|c caps IH]; intros v H Hty; simpl in H.
  - by injection H as <-.
  - apply Return_bind_inv in H as (v1 & Hset & Hrest).
    apply (IH v1 Hrest). by eapply setString_hasType.
Qed.

(** X11. [FindStringStruct] keeps the target a value of its type: when
    the call returns, with or without a match, a target that held a value
    of type [T] holds one again; fields are set and nil pointers
    allocated, no field changes its kind and no struct its number of
    fields. *)
Theorem X11_target_keeps_type (T : gotype) (r : Regexp) (s : string)
    (target target' : value) (matched : bool) :
  FindStringStruct T r s target = Return (matched, target') →
  hasType T target = true →
  hasType T target' = true.
Proof.
  unfold FindStringStruct. intros H Hty.
  destruct (FindStringSubmatch (re r) s) as [matches|].
  - apply Return_bind_inv in H as (v & Hd & [= _ <-]). by eapply deserialize_hasType.
  - by injection H as _ <-.
Qed.

Lemma X11_target_keeps_type_witness :
  let f := mkField "Address" [] true true (TPtr address) in
  let T := TStruct "person" false false [mkField "Name" [("rx", "name")] false true tString; f] in
  let r := mkRegexpStruct (scripted [""; "city"] [("Florence", ["Florence"; "Florence"])])
                          [mkCapture 1 [SField 1; SDeref; SField 0]] in
  hasType T (VStruct [VString ""; VPtr (Some (VStruct [VString "Florence"; VString ""]))]) = true.
Proof.
  intros f T r.
  apply (X11_target_keeps_type T r "Florence" (zero T) _ true); reflexivity.
Defined.

(** X12. For a compiled matcher over a type all of whose resolved getters
    are settable, and an engine that reports one submatch for each group
    name, [FindStringStruct] on an input that matches returns [true] for
    every target that holds a value of the type: it does not panic,
    whatever the target held. *)
Theorem X12_match_returns (regexp_Compile : string → regexp_Regexp + error)
    (T : gotype) (expr structTag : string) (m : Regexp) (s : string)
    (matches : list string) (target : value) :
  Compile regexp_Compile T expr structTag = Return (inl m) →
  allSettable T structTag = true →
  FindStringSubmatch (re m) s = Some matches →
  length matches = length (SubexpNames (re m)) →
  hasType T target = true →
  ∃ target', FindStringStruct T m s target = Return (true, target').
Proof.
  intros Hc Hset Hm Hlen Hty. unfold FindStringStruct. rewrite Hm.
  destruct (deserialize_total T matches (captures m) target) as (v & -> & _); [|done|by exists v].
  intros c Hin.
  destruct (Compile_captures _ _ _ _ _ _ Hc Hin) as (Hi & name & Hg). split.
  - by eapply allSettable_lookup.
  - by rewrite Hlen.
Qed.

Lemma X12_match_returns_witness :
  let re0 := scripted [""; "name"; "city"; "country"] [(leonardo, leonardoFound)] in
  let m := mkRegexpStruct re0
             [mkCapture 1 [SField 0]; mkCapture 2 [SField 1; SField 0];
              mkCapture 3 [SField 1; SField 1]] in
  Compile (fun _ => inl re0) personEmbedded "e" "rx" = Return (inl m)
  ∧ ∃ target', FindStringStruct personEmbedded m leonardo
                 (VStruct [VString "old"; VStruct [VString "x"; VString "y"]])
               = Return (true, target').
Proof.
  intros re0 m. split; [reflexivity|].
  apply (X12_match_returns (fun _ => inl re0) personEmbedded "e" "rx" m leonardo
           leonardoFound); reflexivity.
Defined.

(** ** The types [Compile] accepts *)





Lemma nameOf_bound tagName g t n :
  nameOf tagName g t = Some n → ∃ g', index_map (extractFields t tagName) n = Some g'.
Proof.
  revert t n. induction g as [|[i|] g IH]; intros t n H; simpl in H; [done| |].
  - destruct t as [| |nm s u fs]; try done.
    destruct (fs !! i) as [f|] eqn:Hi; [|done].
    assert (∃ g0, index_map (contribution tagName i f) n = Some g0) as [g0 Hg0].
    { destruct (taggedWith tagName f) as [tag|] eqn:Htag.
      - destruct (isStruct (Type_ f)) eqn:Hs.
        + apply fmap_Some in H as (n' & Hn' & ->).
          destruct (IH _ _ Hn') as [g' Hg']. exists (SField i :: g').
          rewrite (contribution_struct _ _ _ tag) by done. by rewrite Hg'.
        + destruct g; [|done]. injection H as <-. exists [SField i].
          rewrite (contribution_scalar _ _ _ tag) by done. by rewrite decide_True.
      - destruct (Anonymous f) eqn:Ha; [|done].
        destruct (IH _ _ H) as [g' Hg']. exists (SField i :: g').
        rewrite contribution_embedded by done. by rewrite Hg'. }
    rewrite extractFields_struct.
    destruct (lastContribution tagName fs 0 n) as [g'|] eqn:E; [by exists g'|].
    rewrite lastContribution_None in E. specialize (E i f Hi). simpl in E. congruence.
  - destruct t as [|elem|]; try done.
    destruct (IH _ _ H) as [g' Hg']. exists (SDeref :: g'). simpl.
    by rewrite index_map_wrapFields, Hg'.
Qed.

(** X14. The names a mapping resolves are exactly the names that can be
    read off the type: a name has an entry exactly when some getter
    walks through tagged struct fields and embedded fields to a tagged
    field that is not recursed into, and the tag values on the way,
    joined by [__], spell the name.  No tagged field is lost; when
    several fields spell one name, the entry is for one of them. *)
Theorem X14_resolved_names (tagName : string) (T : gotype) (n : string) :
  (∃ g, index_map (extractFields T tagName) n = Some g)
  ↔ (∃ g, nameOf tagName g T = Some n).
Proof.
  split.
  - intros [g Hg]. exists g. by apply extractFields_nameOf.
  - intros [g Hg]. by eapply nameOf_bound.
Qed.



(** ** Patterns that share no name with the type *)

Lemma deserializeAll_unbound T matches z :
  deserializeAll T [] matches (replicate (length matches) z)
  = Return (replicate (length matches) z).
Proof.
  induction matches as [|m matches IH]; simpl; [done|]. by rewrite IH.
Qed.

(** X16. [Compile] does not ask that the pattern names a field.  When
    no group name of the pattern has an entry in the mapping, the matcher
    has no capture: [FindStringStruct] returns [true] on every input that
    matches and leaves the target as it was, and [FindAllStringStruct]
    returns one zero-valued record for each match. *)
Theorem X16_no_common_name (regexp_Compile : string → regexp_Regexp + error)
    (T : gotype) (expr structTag : string) (m : Regexp) :
  Compile regexp_Compile T expr structTag = Return (inl m) →
  (∀ j n, 1 ≤ j → SubexpNames (re m) !! j = Some n →
          index_map (extractFields T structTag) n = None) →
  captures m = []
  ∧ (∀ s matches target, FindStringSubmatch (re m) s = Some matches →
       FindStringStruct T m s target = Return (true, target))
  ∧ (∀ s k matches, FindAllStringSubmatch (re m) s k = Some matches →
       FindAllStringStruct T m s k
       = Return (Some (replicate (length matches) (zero T)))).
Proof.
  intros Hc Hnone.
  apply Compile_inl_inv in Hc as (_ & _ & _ & _ & Hcaps).
  assert (captures m = []) as Hnil.
  { destruct (captures m) as [|[j g] l] eqn:E; [done|]. exfalso.
    assert (mkCapture j g ∈ bindCaptures (extractFields T structTag) (SubexpNames (re m)))
      as Hin by (rewrite <- Hcaps; apply elem_of_cons; by left).
    apply elem_of_bindCaptures in Hin as (Hj & n & Hn & _ & Hg).
    by rewrite (Hnone j n Hj Hn) in Hg. }
  split; [done|]. split.
  - intros s matches target Hm. unfold FindStringStruct. by rewrite Hm, Hnil.
  - intros s k matches Hm. unfold FindAllStringStruct. rewrite Hm, Hnil. simpl.
    by rewrite deserializeAll_unbound.
Qed.

Lemma X16_no_common_name_witness :
  let re0 := scripted [""; "key"; "value"] [("a=b", ["a=b"; "a"; "b"])] in
  let m := mkRegexpStruct re0 [] in
  Compile (fun _ => inl re0) pair "e" "rx" = Return (inl m)
  ∧ FindStringStruct pair m "a=b" (VStruct [VString "old"; VString "kept"])
    = Return (true, VStruct [VString "old"; VString "kept"])
  ∧ FindAllStringStruct pair m "a=b" (-1) = Return (Some [zero pair]).
Proof.
  intros re0 m. split; [reflexivity|].
  destruct (X16_no_common_name (fun _ => inl re0) pair "e" "rx" m eq_refl)
    as (_ & Hone & Hall).
  - intros j n Hj Hn. destruct j as [|[|[|j]]]; try lia; simpl in Hn; try done.
    + by injection Hn as <-.
    + by injection Hn as <-.
  - split.
    + by apply (Hone "a=b" ["a=b"; "a"; "b"]).
    + by apply (Hall "a=b" (-1)%Z [["a=b"; "a"; "b"]]).
Defined.

(** ** The records of [FindAllStringStruct] *)

Lemma FindAllStringStruct_record T r s n records i v :
  FindAllStringStruct T r s n = Return (Some records) → records !! i = Some v →
  ∃ matches m, FindAllStringSubmatch (re r) s n = Some matches
               ∧ matches !! i = Some m
               ∧ deserialize T m (captures r) (zero T) = Return v.
Proof.
  unfold FindAllStringStruct. intros H Hi.
  destruct (FindAllStringSubmatch (re r) s n) as [matches|]; [|done].
  apply Return_bind_inv in H as (records' & Hd & [= <-]).
  apply deserializeAll_Forall2 in Hd.
  destruct (Forall2_lookup_r _ _ _ _ _ Hd Hi) as (m & Hm & Hv).
  by exists matches, m.
Qed.



(** X18. Every record that [FindAllStringStruct] returns is a value of
    type [T], and it is the record that [FindStringStruct] leaves in a
    zero-valued target when the engine answers it with the same
    submatches: the match at position [i] alone decides the record at
    position [i]. *)
Theorem X18_records_one_by_one (T : gotype) (r : Regexp) (s : string) (n : Z)
    (records : list value) (i : nat) (v : value) :
  FindAllStringStruct T r s n = Return (Some records) →
  records !! i = Some v →
  hasType T v = true
  ∧ ∃ matches m, FindAllStringSubmatch (re r) s n = Some matches
      ∧ matches !! i = Some m
      ∧ ∀ r' s', captures r' = captures r →
          FindStringSubmatch (re r') s' = Some m →
          FindStringStruct T r' s' (zero T) = Return (true, v).
Proof.
  intros H Hi.
  destruct (FindAllStringStruct_record _ _ _ _ _ _ _ H Hi) as (matches & m & Hm & Hmi & Hd).
  split.
  - eapply deserialize_hasType; [exact Hd | apply zero_hasType].
  - exists matches, m. repeat split; [done..|].
    intros r' s' Hcaps Hfind. unfold FindStringStruct. by rewrite Hfind, Hcaps, Hd.
Qed.

Lemma X18_records_one_by_one_witness :
  hasType pair (VStruct [VString "a"; VString ""]) = true
  ∧ ∃ matches m, FindAllStringSubmatch (re onlyKMatcher) "a" (-1) = Some matches
      ∧ matches !! 0 = Some m
      ∧ ∀ r' s', captures r' = captures onlyKMatcher →
          FindStringSubmatch (re r') s' = Some m →
          FindStringStruct pair r' s' (zero pair)
          = Return (true, VStruct [VString "a"; VString ""]).
Proof.
  apply (X18_records_one_by_one pair onlyKMatcher "a" (-1)
           [VStruct [VString "a"; VString ""]] 0); reflexivity.
Defined.
